(** * Shallow embedding of the laff service (package service, service.go)

    The service keeps two buffered channels (a name cache and a joke
    cache), background goroutines that fill them, and the foreground
    [Joke] entry point.  HTTP traffic goes through [client.Do], which is
    modelled by a server function answering the n-th request; JSON bodies
    are given as the JSON value they spell. *)

From Stdlib Require Import ZArith List String Ascii Bool Lia.
Import ListNotations.

Local Set Warnings "-register-all".
Local Open Scope string_scope.
Local Open Scope Z_scope.
Local Open Scope list_scope.

Local Infix "+++" := String.append (right associativity, at level 60).

(** ** Go integers *)

(** Two's-complement wrap-around of a Go [int] / [int64] (64-bit). *)
Definition wrap64 (z : Z) : Z := Z.modulo (z + 2 ^ 63) (2 ^ 64) - 2 ^ 63.

Definition int64_min : Z := - 2 ^ 63.
Definition int64_max : Z := 2 ^ 63 - 1.

(** ** Constants of service.go *)

Definition nameURL : string := "http://uinames.com/api/".
Definition jokeURL : string := "http://api.icndb.com/jokes/random?".

Definition maxErrs : Z := 50.
Definition dfltRetry : Z := 90.

(** [time.Second], in nanoseconds. *)
Definition Second : Z := 1000000000.

(** ** JSON values (the body of a response, already lexed) *)

Inductive json : Type :=
| JNull
| JBool (b : bool)
| JInt (z : Z)            (* a number literal without fraction or exponent *)
| JFrac (lit : string)    (* any other number literal *)
| JStr (s : string)
| JArr (vs : list json)
| JObj (members : list (string * json)).

(** ** Data types of service.go *)

Record NameResp : Type := mkNameResp {
  Name : string;
  Surname : string;
  Gender : string;
  Region : string
}.

Record JokeValue : Type := mkJokeValue {
  ID : Z;
  Joke_ : string;          (* field [Joke] *)
  Categories : list string
}.

Record JokeResp : Type := mkJokeResp {
  Type_ : string;          (* field [Type] *)
  Value : JokeValue
}.

Definition zero_NameResp : NameResp := mkNameResp "" "" "" "".
Definition zero_JokeValue : JokeValue := mkJokeValue 0 "" [].
Definition zero_JokeResp : JokeResp := mkJokeResp "" zero_JokeValue.

(** The errors the service functions return. *)
Inductive error : Type :=
| rateLimitError (retry : Z)
    (* fmt.Errorf("invoking %s fetch got HTTP status %d (%s)", code, text) *)
| ErrHTTPStatus (op : string) (code : Z) (text : string)
| ErrTransport     (* error returned by client.Do *)
| ErrEmptyBody     (* errors.New("unexpected empty body") *)
| ErrRead          (* error returned by ioutil.ReadAll *)
| ErrUnmarshal     (* pkgerr.Wrap(err, "unmarshaling request body") *)
| ErrCanceled.     (* context.Canceled *)

Inductive result (A : Type) : Type :=
| Ok (a : A)
| Err (e : error).
Arguments Ok {A} a.
Arguments Err {A} e.

(** ** HTTP *)

Record request : Type := mkRequest {
  Method : string;
  RequestURL : string;
  Accept : string        (* the Accept header added by the service *)
}.

(** [resp.Body]: nil, a body whose [ioutil.ReadAll] fails, or bytes that
    spell a JSON value ([None]: not valid JSON). *)
Inductive body : Type :=
| NilBody
| UnreadableBody
| BodyBytes (doc : option json).

(** Header keys are stored in canonical MIME form. *)
Record response : Type := mkResponse {
  StatusCode : Z;
  Header : list (string * list string);
  Body : body
}.

(** [http.Header.Get]: first value of the key, or "" . *)
Fixpoint Header_Get (h : list (string * list string)) (k : string) : string :=
  match h with
  | [] => ""
  | (k', vs) :: h' =>
      if String.eqb k k' then
        match vs with v :: _ => v | [] => "" end
      else Header_Get h' k
  end.

(** [http.StatusText] (net/http/status.go); unknown codes give "" . *)
Definition statusText_table : list (Z * string) :=
  [(100, "Continue"); (101, "Switching Protocols"); (102, "Processing");
   (103, "Early Hints");
   (200, "OK"); (201, "Created"); (202, "Accepted");
   (203, "Non-Authoritative Information"); (204, "No Content");
   (205, "Reset Content"); (206, "Partial Content"); (207, "Multi-Status");
   (208, "Already Reported"); (226, "IM Used");
   (300, "Multiple Choices"); (301, "Moved Permanently"); (302, "Found");
   (303, "See Other"); (304, "Not Modified"); (305, "Use Proxy");
   (307, "Temporary Redirect"); (308, "Permanent Redirect");
   (400, "Bad Request"); (401, "Unauthorized"); (402, "Payment Required");
   (403, "Forbidden"); (404, "Not Found"); (405, "Method Not Allowed");
   (406, "Not Acceptable"); (407, "Proxy Authentication Required");
   (408, "Request Timeout"); (409, "Conflict"); (410, "Gone");
   (411, "Length Required"); (412, "Precondition Failed");
   (413, "Request Entity Too Large"); (414, "Request URI Too Long");
   (415, "Unsupported Media Type"); (416, "Requested Range Not Satisfiable");
   (417, "Expectation Failed"); (418, "I'm a teapot");
   (421, "Misdirected Request"); (422, "Unprocessable Entity");
   (423, "Locked"); (424, "Failed Dependency"); (425, "Too Early");
   (426, "Upgrade Required"); (428, "Precondition Required");
   (429, "Too Many Requests"); (431, "Request Header Fields Too Large");
   (451, "Unavailable For Legal Reasons");
   (500, "Internal Server Error"); (501, "Not Implemented");
   (502, "Bad Gateway"); (503, "Service Unavailable");
   (504, "Gateway Timeout"); (505, "HTTP Version Not Supported");
   (506, "Variant Also Negotiates"); (507, "Insufficient Storage");
   (508, "Loop Detected"); (510, "Not Extended");
   (511, "Network Authentication Required")].

Definition StatusText (code : Z) : string :=
  match find (fun p => fst p =? code) statusText_table with
  | Some (_, t) => t
  | None => ""
  end.

(** ** strconv.Atoi (64-bit [int]) *)

Definition is_digit (c : ascii) : bool :=
  (48 <=? nat_of_ascii c)%nat && (nat_of_ascii c <=? 57)%nat.

Definition digit_val (c : ascii) : Z := Z.of_nat (nat_of_ascii c) - 48.

Fixpoint digits_value (acc : Z) (s : string) : option Z :=
  match s with
  | EmptyString => Some acc
  | String c s' =>
      if is_digit c then digits_value (acc * 10 + digit_val c) s' else None
  end.

(** An optional sign, then at least one decimal digit; values outside the
    range of [int] are a range error. *)
Definition Atoi (s : string) : option Z :=
  let '(neg, rest) :=
    match s with
    | String "-"%char r => (true, r)
    | String "+"%char r => (false, r)
    | _ => (false, s)
    end in
  match rest with
  | EmptyString => None
  | _ =>
      match digits_value 0 rest with
      | None => None
      | Some u =>
          let v := if neg then - u else u in
          if (int64_min <=? v) && (v <=? int64_max) then Some v else None
      end
  end.


(** ** encoding/json: decoding into the service's structs

    A struct is decoded from an object member by member, in order; a key
    selects the field of that name, an exact match first, else the first
    field whose name matches case-insensitively; unknown keys are
    skipped; [null] leaves a string, int or struct unchanged.  A type
    mismatch anywhere makes [json.Unmarshal] return an error, and the
    service then discards the value, so it is [None] here. *)

(** [byte &^ 0x20] ([caseMask] of encoding/json). *)
Definition mask_case (c : ascii) : ascii :=
  match c with Ascii b0 b1 b2 b3 b4 _ b6 b7 => Ascii b0 b1 b2 b3 b4 false b6 b7 end.

Definition is_upper_letter (c : ascii) : bool :=
  (65 <=? nat_of_ascii c)%nat && (nat_of_ascii c <=? 90)%nat.

(** [equalFoldRight] of encoding/json/fold.go: ASCII letters match up to
    case; the field's 's' and 'k' also match U+017F and U+212A (Kelvin). *)
Fixpoint equalFoldRight (s t : string) : bool :=
  match s with
  | EmptyString => match t with EmptyString => true | _ => false end
  | String sb s' =>
      match t with
      | EmptyString => false
      | String tb t' =>
          if (nat_of_ascii tb <? 128)%nat then
            if Ascii.eqb sb tb then equalFoldRight s' t'
            else if is_upper_letter (mask_case sb)
                    && Ascii.eqb (mask_case sb) (mask_case tb)
                 then equalFoldRight s' t' else false
          else
            match t with
            | String "197"%char (String "191"%char rest) =>
                if Ascii.eqb (mask_case sb) "S"%char
                then equalFoldRight s' rest else false
            | String "226"%char (String "132"%char (String "170"%char rest)) =>
                if Ascii.eqb (mask_case sb) "K"%char
                then equalFoldRight s' rest else false
            | _ => false
            end
      end
  end.

Definition field_decoder (T : Type) : Type := T -> json -> option T.

Definition lookup_field {T} (fs : list (string * field_decoder T)) (k : string)
  : option (field_decoder T) :=
  match find (fun f => String.eqb (fst f) k) fs with
  | Some f => Some (snd f)
  | None => option_map snd (find (fun f => equalFoldRight (fst f) k) fs)
  end.

Fixpoint decode_members {T} (fs : list (string * field_decoder T)) (t : T)
  (ms : list (string * json)) : option T :=
  match ms with
  | [] => Some t
  | (k, v) :: ms' =>
      match lookup_field fs k with
      | None => decode_members fs t ms'
      | Some d =>
          match d t v with
          | None => None
          | Some t' => decode_members fs t' ms'
          end
      end
  end.

Definition decode_struct {T} (fs : list (string * field_decoder T)) (t : T)
  (v : json) : option T :=
  match v with
  | JObj ms => decode_members fs t ms
  | JNull => Some t
  | _ => None
  end.

Definition dec_string (old : string) (v : json) : option string :=
  match v with
  | JStr s => Some s
  | JNull => Some old
  | _ => None
  end.

Definition dec_int (old : Z) (v : json) : option Z :=
  match v with
  | JInt z => if (int64_min <=? z) && (z <=? int64_max) then Some z else None
  | JNull => Some old
  | _ => None
  end.

Fixpoint dec_string_elems (i : nat) (old : list string) (vs : list json)
  : option (list string) :=
  match vs with
  | [] => Some []
  | v :: vs' =>
      match dec_string (nth i old "") v, dec_string_elems (S i) old vs' with
      | Some x, Some xs => Some (x :: xs)
      | _, _ => None
      end
  end.

(** A []string: [null] sets it to nil, an array decodes element-wise. *)
Definition dec_strings (old : list string) (v : json) : option (list string) :=
  match v with
  | JNull => Some []
  | JArr vs => dec_string_elems 0 old vs
  | _ => None
  end.

Definition NameResp_fields : list (string * field_decoder NameResp) :=
  [("name", fun r v => option_map
      (fun x => mkNameResp x (Surname r) (Gender r) (Region r)) (dec_string (Name r) v));
   ("surname", fun r v => option_map
      (fun x => mkNameResp (Name r) x (Gender r) (Region r)) (dec_string (Surname r) v));
   ("gender", fun r v => option_map
      (fun x => mkNameResp (Name r) (Surname r) x (Region r)) (dec_string (Gender r) v));
   ("region", fun r v => option_map
      (fun x => mkNameResp (Name r) (Surname r) (Gender r) x) (dec_string (Region r) v))].

Definition JokeValue_fields : list (string * field_decoder JokeValue) :=
  [("id", fun r v => option_map
      (fun x => mkJokeValue x (Joke_ r) (Categories r)) (dec_int (ID r) v));
   ("joke", fun r v => option_map
      (fun x => mkJokeValue (ID r) x (Categories r)) (dec_string (Joke_ r) v));
   ("categories", fun r v => option_map
      (fun x => mkJokeValue (ID r) (Joke_ r) x) (dec_strings (Categories r) v))].

Definition JokeResp_fields : list (string * field_decoder JokeResp) :=
  [("type", fun r v => option_map
      (fun x => mkJokeResp x (Value r)) (dec_string (Type_ r) v));
   ("value", fun r v => option_map
      (fun x => mkJokeResp (Type_ r) x) (decode_struct JokeValue_fields (Value r) v))].

(** [json.Unmarshal(b, &x)] into a zero value; [None] for a body that is
    not valid JSON or any decoding error. *)
Definition Unmarshal_NameResp (doc : option json) : option NameResp :=
  match doc with
  | None => None
  | Some v => decode_struct NameResp_fields zero_NameResp v
  end.

Definition Unmarshal_JokeResp (doc : option json) : option JokeResp :=
  match doc with
  | None => None
  | Some v => decode_struct JokeResp_fields zero_JokeResp v
  end.

(** ** net/url *)

Definition is_alnum (c : ascii) : bool :=
  let n := nat_of_ascii c in
  (((48 <=? n) && (n <=? 57)) || ((65 <=? n) && (n <=? 90))
   || ((97 <=? n) && (n <=? 122)))%nat.

(** [shouldEscape(c, encodeQueryComponent)]. *)
Definition shouldEscape (c : ascii) : bool :=
  negb (is_alnum c || Ascii.eqb c "-" || Ascii.eqb c "_"
        || Ascii.eqb c "." || Ascii.eqb c "~").

Definition upperhex : string := "0123456789ABCDEF".

Definition hex_hi (c : ascii) : ascii :=
  match String.get (nat_of_ascii c / 16)%nat upperhex with Some h => h | None => "0"%char end.
Definition hex_lo (c : ascii) : ascii :=
  match String.get (nat_of_ascii c mod 16)%nat upperhex with Some h => h | None => "0"%char end.

(** [url.QueryEscape]. *)
Fixpoint QueryEscape (s : string) : string :=
  match s with
  | EmptyString => EmptyString
  | String c s' =>
      if Ascii.eqb c " " then String "+" (QueryEscape s')
      else if shouldEscape c
      then String "%" (String (hex_hi c) (String (hex_lo c) (QueryEscape s')))
      else String c (QueryEscape s')
  end.

(** [url.Values], keys in insertion order. *)
Definition Values : Type := list (string * list string).

Fixpoint Values_Set (vs : Values) (k v : string) : Values :=
  match vs with
  | [] => [(k, [v])]
  | (k', xs) :: vs' =>
      if String.eqb k k' then (k', [v]) :: vs' else (k', xs) :: Values_Set vs' k v
  end.

Fixpoint Values_Add (vs : Values) (k v : string) : Values :=
  match vs with
  | [] => [(k, [v])]
  | (k', xs) :: vs' =>
      if String.eqb k k' then (k', xs ++ [v]) :: vs' else (k', xs) :: Values_Add vs' k v
  end.

Definition Values_lookup (vs : Values) (k : string) : list string :=
  match find (fun p => String.eqb (fst p) k) vs with
  | Some (_, xs) => xs
  | None => []
  end.

Fixpoint insert_key (k : string) (ks : list string) : list string :=
  match ks with
  | [] => [k]
  | k' :: ks' =>
      match String.compare k k' with
      | Gt => k' :: insert_key k ks'
      | _ => k :: ks
      end
  end.

(** [sort.Strings] (byte-wise order). *)
Definition sort_strings (ks : list string) : list string :=
  fold_right insert_key [] ks.

(** [url.Values.Encode]: keys sorted, each value as [key=value]
    (both query-escaped), joined with '&'. *)
Definition Values_Encode (vs : Values) : string :=
  String.concat "&"
    (flat_map (fun k => map (fun v => QueryEscape k +++ "=" +++ QueryEscape v)
                            (Values_lookup vs k))
              (sort_strings (map fst vs))).

(** The fields of [url.URL] the joke URL uses. *)
Record url_URL : Type := mkURL {
  Scheme : string;
  Host : string;
  Path : string;
  ForceQuery : bool;
  RawQuery : string
}.

(** [url.Parse(jokeURL)]: the trailing '?' sets [ForceQuery]. *)
Definition jokeURL_parsed : url_URL :=
  mkURL "http" "api.icndb.com" "/jokes/random" true "".

Definition nonempty (s : string) : bool := negb (String.eqb s "").

(** [url.URL.String] for a URL without user, opaque part or fragment;
    the host and path used here need no escaping. *)
Definition URL_String (u : url_URL) : string :=
  (if nonempty (Scheme u) then Scheme u +++ ":" else "")
  +++ (if nonempty (Scheme u) || nonempty (Host u)
       then (if nonempty (Host u) || nonempty (Path u) then "//" else "") +++ Host u
       else "")
  +++ (match Path u with
       | String c _ => if negb (Ascii.eqb c "/") && nonempty (Host u) then "/" else ""
       | EmptyString => ""
       end)
  +++ Path u
  +++ (if ForceQuery u || nonempty (RawQuery u) then "?" +++ RawQuery u else "").

Definition encodeJokeURL (firstName lastName : string) : string :=
  let jurl := jokeURL_parsed in
  let parameters := Values_Set [] "firstName" firstName in
  let parameters := Values_Set parameters "lastName" lastName in
  let parameters := Values_Add parameters "limitTo" "nerdy" in
  URL_String (mkURL (Scheme jurl) (Host jurl) (Path jurl) (ForceQuery jurl)
                    (Values_Encode parameters)).

(** ** The service state *)

(** [LaffService]; a buffered channel is the list of its queued items,
    oldest first.  [calls] logs the requests passed to [client.Do]. *)
Record LaffService : Type := mkLaffService {
  nameChan : list NameResp;
  jokeChan : list string;
  numWorkers : Z;
  bufLen : Z;
  nameErrs : Z;
  jokeErrs : Z;
  nameTries : Z;
  calls : list request
}.

Definition set_nameChan (q : list NameResp) (ls : LaffService) : LaffService :=
  mkLaffService q (jokeChan ls) (numWorkers ls) (bufLen ls) (nameErrs ls)
    (jokeErrs ls) (nameTries ls) (calls ls).
Definition set_jokeChan (q : list string) (ls : LaffService) : LaffService :=
  mkLaffService (nameChan ls) q (numWorkers ls) (bufLen ls) (nameErrs ls)
    (jokeErrs ls) (nameTries ls) (calls ls).
Definition set_nameErrs (n : Z) (ls : LaffService) : LaffService :=
  mkLaffService (nameChan ls) (jokeChan ls) (numWorkers ls) (bufLen ls) n
    (jokeErrs ls) (nameTries ls) (calls ls).
Definition set_jokeErrs (n : Z) (ls : LaffService) : LaffService :=
  mkLaffService (nameChan ls) (jokeChan ls) (numWorkers ls) (bufLen ls)
    (nameErrs ls) n (nameTries ls) (calls ls).
Definition set_nameTries (n : Z) (ls : LaffService) : LaffService :=
  mkLaffService (nameChan ls) (jokeChan ls) (numWorkers ls) (bufLen ls)
    (nameErrs ls) (jokeErrs ls) n (calls ls).
Definition set_calls (c : list request) (ls : LaffService) : LaffService :=
  mkLaffService (nameChan ls) (jokeChan ls) (numWorkers ls) (bufLen ls)
    (nameErrs ls) (jokeErrs ls) (nameTries ls) c.

(** [New]: it returns no error, but [make(chan _, bufLen)] panics
    ([None]) for a negative [bufLen].  Every other size is taken to be
    allocatable (the runtime's "size out of range" panic for sizes near
    the address-space limit is left out). *)
Definition New (numWorkers bufLen : Z) : option (result LaffService) :=
  if bufLen <? 0 then None
  else Some (Ok (mkLaffService [] [] numWorkers bufLen 0 0 0 [])).

(** The request built by [fetchName] and the one built by [fetchJoke]. *)
Definition name_request : request := mkRequest "GET" nameURL "application/json".
Definition joke_request (name : NameResp) : request :=
  mkRequest "GET" (encodeJokeURL (Name name) (Surname name)) "application/json".

(** ** Fetches, [Joke] and the cache goroutines

    [server n req] is the response (or transport error, [None]) that
    [client.Do] gets for the n-th request the service issues. *)

Section Service.

Variable server : nat -> request -> option response.

Definition client_Do (ls : LaffService) (req : request)
  : option response * LaffService :=
  (server (List.length (calls ls)) req, set_calls (calls ls ++ [req])%list ls).

(** [fetchName].  Its [ls.nameTries++] is taken as one step together
    with the request: the models below interleave whole calls and steps,
    so the lost updates that Go's unsynchronized increments of the shared
    counters can suffer when goroutines race are not modelled. *)
Definition fetchName (ls : LaffService) : result NameResp * LaffService :=
  let req := name_request in
  let ls := set_nameTries (wrap64 (nameTries ls + 1)) ls in
  let '(r, ls) := client_Do ls req in
  match r with
  | None => (Err ErrTransport, ls)
  | Some resp =>
      match Body resp with
      | NilBody => (Err ErrEmptyBody, ls)
      | UnreadableBody => (Err ErrRead, ls)
      | BodyBytes b =>
          if negb (StatusCode resp =? 200) then
            if StatusCode resp =? 429 then
              let retry := Header_Get (Header resp) "Retry-After" in
              let delay := match Atoi retry with Some v => v | None => dfltRetry end in
              (Err (rateLimitError delay), ls)
            else
              (Err (ErrHTTPStatus "name" (StatusCode resp)
                      (StatusText (StatusCode resp))), ls)
          else
            match Unmarshal_NameResp b with
            | None => (Err ErrUnmarshal, ls)
            | Some nameResp => (Ok nameResp, ls)
            end
      end
  end.

(** [fetchJoke]. *)
Definition fetchJoke (ls : LaffService) (name : NameResp)
  : result string * LaffService :=
  let req := joke_request name in
  let '(r, ls) := client_Do ls req in
  match r with
  | None => (Err ErrTransport, ls)
  | Some resp =>
      match Body resp with
      | NilBody => (Err ErrEmptyBody, ls)
      | UnreadableBody => (Err ErrRead, ls)
      | BodyBytes b =>
          if negb (StatusCode resp =? 200) then
            (Err (ErrHTTPStatus "joke" (StatusCode resp)
                    (StatusText (StatusCode resp))), ls)
          else
            match Unmarshal_JokeResp b with
            | None => (Err ErrUnmarshal, ls)
            | Some jokeResp => (Ok (Joke_ (Value jokeResp)), ls)
            end
      end
  end.

(** [Joke], given whether [ctx] is done.  A Go [select] picks uniformly
    at random among its ready cases and runs [default] only when none is
    ready, so the result is the list of possible outcomes. *)
Definition Joke (ctx_done : bool) (ls : LaffService)
  : list (result string * LaffService) :=
  let ready :=
    (if ctx_done then [(Err ErrCanceled, ls)] else [])
    ++ match jokeChan ls with
       | jk :: q => [(Ok jk, set_jokeChan q ls)]
       | [] => []
       end in
  match ready with
  | _ :: _ => ready
  | [] =>
      match nameChan ls with
      | nm :: q => [fetchJoke (set_nameChan q ls) nm]
      | [] =>
          let '(r, ls) := fetchName ls in
          match r with
          | Err e => [(Err e, ls)]
          | Ok name => [fetchJoke ls name]
          end
      end
  end.

(** The name-producer goroutine of [RunCache]: where it stands. *)
Inductive producer : Type :=
| PFetch                  (* at [Loop:], about to call fetchName *)
| PRateWait (d : Z)       (* blocked on the rate-limit ticker of d ns *)
| PSend (n : NameResp)    (* blocked sending on nameChan *)
| PPace                   (* blocked on the sleepInterval ticker *)
| PExit                   (* returned *)
| PPanic.                 (* time.NewTicker panicked *)

(** One step of a name producer: the possible moves, each with the time
    (ns) it spends blocked.  The fetch step runs [ls.nameErrs++] and its
    [== maxErrs] test atomically (see [fetchName]). *)
Definition producer_step (sleepInterval : Z) (ctx_done : bool)
  (p : producer) (ls : LaffService) : list (Z * producer * LaffService) :=
  let cancel := if ctx_done then [(0, PExit, ls)] else [] in
  match p with
  | PFetch =>
      let '(r, ls) := fetchName ls in
      match r with
      | Ok name => [(0, PSend name, ls)]
      | Err (rateLimitError v) =>
          let d := wrap64 (wrap64 (v + 5) * Second) in
          if d <=? 0 then [(0, PPanic, ls)] else [(0, PRateWait d, ls)]
      | Err _ =>
          let ls := set_nameErrs (wrap64 (nameErrs ls + 1)) ls in
          if nameErrs ls =? maxErrs then [(0, PExit, ls)]
          else [(0, PFetch, ls)]
      end
  | PRateWait d => cancel ++ [(d, PFetch, ls)]
  | PSend name =>
      cancel ++
      (if Z.of_nat (List.length (nameChan ls)) <? bufLen ls
       then [(0, PPace, set_nameChan (nameChan ls ++ [name]) ls)] else [])
  | PPace => cancel ++ [(sleepInterval, PFetch, ls)]
  | PExit | PPanic => []
  end.

(** The joke-composer goroutine of [RunCache]. *)
Inductive composer : Type :=
| CRecv                   (* blocked receiving from nameChan *)
| CFetch (n : NameResp)   (* in the retry loop, about to call fetchJoke *)
| CSend (j : string)      (* blocked sending on jokeChan *)
| CExit.

(** One step of a joke composer; the fetch step's [ls.jokeErrs++] and its
    test of [ls.nameErrs] run atomically (see [fetchName]). *)
Definition composer_step (ctx_done : bool) (c : composer) (ls : LaffService)
  : list (composer * LaffService) :=
  let cancel := if ctx_done then [(CExit, ls)] else [] in
  match c with
  | CRecv =>
      cancel ++
      match nameChan ls with
      | n :: q => [(CFetch n, set_nameChan q ls)]
      | [] => []
      end
  | CFetch name =>
      let '(r, ls) := fetchJoke ls name in
      match r with
      | Err _ =>
          let ls := set_jokeErrs (wrap64 (jokeErrs ls + 1)) ls in
          if nameErrs ls =? maxErrs then [(CExit, ls)] else [(CFetch name, ls)]
      | Ok joke => [(CSend joke, ls)]
      end
  | CSend joke =>
      cancel ++
      (if Z.of_nat (List.length (jokeChan ls)) <? bufLen ls
       then [(CRecv, set_jokeChan (jokeChan ls ++ [joke]) ls)] else [])
  | CExit => []
  end.

End Service.

(** Go integer division: truncating, and a zero divisor panics ([None]). *)
Definition go_div (a b : Z) : option Z :=
  if b =? 0 then None else Some (Z.quot a b).

(** [sleepInterval := time.Duration((60 / (6 / ls.numWorkers))) * time.Second]. *)
Definition sleepInterval (numWorkers : Z) : option Z :=
  match go_div 6 numWorkers with
  | None => None
  | Some q =>
      match go_div 60 q with
      | None => None
      | Some r => Some (wrap64 (r * Second))
      end
  end.

(** [RunCache] up to the start of its goroutines: the pacing interval,
    then one producer and one composer per worker; [None] is a panic. *)
Definition RunCache_start (ls : LaffService)
  : option (Z * list producer * list composer) :=
  match sleepInterval (numWorkers ls) with
  | None => None
  | Some iv =>
      Some (iv, repeat PFetch (Z.to_nat (numWorkers ls)),
                repeat CRecv (Z.to_nat (numWorkers ls)))
  end.

(** * Properties *)

Ltac break_match :=
  repeat match goal with
         | |- context [match ?x with _ => _ end] => destruct x eqn:?
         end.

Section Fetches.

Variable server : nat -> request -> option response.

Lemma fetchName_calls (ls : LaffService) :
  calls (snd (fetchName server ls)) = calls ls ++ [name_request].
Proof. unfold fetchName, client_Do; cbn; break_match; reflexivity. Qed.

Lemma fetchJoke_calls (ls : LaffService) (n : NameResp) :
  calls (snd (fetchJoke server ls n)) = calls ls ++ [joke_request n].
Proof. unfold fetchJoke, client_Do; cbn; break_match; reflexivity. Qed.

Lemma fetchJoke_nameChan (ls : LaffService) (n : NameResp) :
  nameChan (snd (fetchJoke server ls n)) = nameChan ls.
Proof. unfold fetchJoke, client_Do; cbn; break_match; reflexivity. Qed.

(** [fetchJoke] has no rate-limit path. *)
Lemma fetchJoke_not_rateLimit (ls : LaffService) (n : NameResp) (r : Z) :
  fst (fetchJoke server ls n) <> Err (rateLimitError r).
Proof. unfold fetchJoke, client_Do; cbn; break_match; cbn; discriminate. Qed.

Lemma fetchName_response (ls : LaffService) :
  fetchName server ls =
  (fst (fetchName server ls),
   set_calls (calls ls ++ [name_request]) (set_nameTries (wrap64 (nameTries ls + 1)) ls)).
Proof. unfold fetchName, client_Do; cbn; break_match; reflexivity. Qed.

End Fetches.

(** A server that is down, and two starting states. *)
Definition server_down : nat -> request -> option response := fun _ _ => None.

Definition ls_empty : LaffService := mkLaffService [] [] 2 5 0 0 0 [].

Definition ls_one_joke : LaffService := mkLaffService [] ["j"] 2 5 0 0 0 [].

Definition nm0 : NameResp := mkNameResp "Ryan" "Gonzalez" "male" "United States".

Definition ls_one_name : LaffService := mkLaffService [nm0] [] 2 5 0 0 0 [].

(** ** FrontDoor: the cascade of [Joke] *)

(** C1 (amended): with the context not cancelled, [Joke] serves a queued
    joke with no upstream call; else a queued name with exactly one joke
    fetch; else it fetches a name and, only if that succeeds, exactly one
    joke for it; a failed name fetch is returned with no joke fetch.
    Every path yields one outcome and issues no retry. *)
Theorem Joke_cascade (server : nat -> request -> option response) (ls : LaffService) :
  (forall jk q, jokeChan ls = jk :: q ->
     Joke server false ls = [(Ok jk, set_jokeChan q ls)])
  /\ (forall nm q, jokeChan ls = [] -> nameChan ls = nm :: q ->
     Joke server false ls = [fetchJoke server (set_nameChan q ls) nm]
     /\ calls (snd (fetchJoke server (set_nameChan q ls) nm)) = calls ls ++ [joke_request nm])
  /\ (jokeChan ls = [] -> nameChan ls = [] ->
     exists r ls', Joke server false ls = [(r, ls')] /\
     ((exists name, fst (fetchName server ls) = Ok name
        /\ r = fst (fetchJoke server (snd (fetchName server ls)) name)
        /\ calls ls' = calls ls ++ [name_request; joke_request name])
      \/ (exists e, fst (fetchName server ls) = Err e /\ r = Err e
        /\ calls ls' = calls ls ++ [name_request]))).
Proof.
  split; [| split].
  - intros jk q Hj. unfold Joke. rewrite Hj. reflexivity.
  - intros nm q Hj Hn. unfold Joke. rewrite Hj, Hn. split; [reflexivity|].
    rewrite fetchJoke_calls. reflexivity.
  - intros Hj Hn. unfold Joke. rewrite Hj, Hn. cbn -[fetchName fetchJoke].
    pose proof (fetchName_calls server ls) as Hc.
    destruct (fetchName server ls) as [[name|e] ls1] eqn:Hf; cbn -[fetchJoke] in Hc |- *.
    + destruct (fetchJoke server ls1 name) as [r ls2] eqn:Hj2.
      exists r, ls2. split; [reflexivity|]. left. exists name.
      rewrite Hj2. split; [reflexivity|]. split; [reflexivity|].
      pose proof (fetchJoke_calls server ls1 name) as Hc2.
      rewrite Hj2 in Hc2. cbn in Hc2. rewrite Hc2, Hc, <- app_assoc. reflexivity.
    + exists (Err e), ls1. split; [reflexivity|]. right. exists e. auto.
Qed.

Lemma Joke_cascade_witness :
  Joke server_down false ls_one_joke = [(Ok "j", set_jokeChan [] ls_one_joke)]
  /\ Joke server_down false ls_one_name
     = [fetchJoke server_down (set_nameChan [] ls_one_name) nm0].
Proof.
  destruct (Joke_cascade server_down ls_one_joke) as [H1 _].
  destruct (Joke_cascade server_down ls_one_name) as [_ [H2 _]].
  split.
  - apply H1. reflexivity.
  - apply (H2 nm0 []); reflexivity.
Defined.

(** C1 (counterexample): with both queues empty and the name service down,
    [Joke] issues a single upstream request, not a name fetch followed by
    a joke fetch. *)
Lemma Joke_miss_name_failure_one_call :
  map fst (Joke server_down false ls_empty) = [Err ErrTransport]
  /\ map (fun o => List.length (calls (snd o))) (Joke server_down false ls_empty) = [1%nat].
Proof. split; reflexivity. Qed.

(** C5 (amended): once the context is cancelled, [Joke] never blocks and
    makes no upstream call: its outcomes are [context.Canceled] with the
    state unchanged, or, when a joke is queued, that joke popped (Go's
    [select] picks either); with an empty joke queue it is only
    [context.Canceled], and with a joke queued both outcomes are
    possible, so cancellation does not take precedence. *)
Theorem Joke_canceled (server : nat -> request -> option response) (ls : LaffService) :
  Joke server true ls <> []
  /\ (forall o, In o (Joke server true ls) ->
        o = (Err ErrCanceled, ls)
        \/ exists jk q, jokeChan ls = jk :: q /\ o = (Ok jk, set_jokeChan q ls))
  /\ (jokeChan ls = [] -> Joke server true ls = [(Err ErrCanceled, ls)])
  /\ (forall jk q, jokeChan ls = jk :: q ->
        In (Err ErrCanceled, ls) (Joke server true ls)
        /\ In (Ok jk, set_jokeChan q ls) (Joke server true ls)).
Proof.
  unfold Joke. cbn. split; [| split; [| split]].
  - discriminate.
  - intros o Ho. destruct (jokeChan ls) as [|jk q] eqn:Hj; cbn in Ho.
    + destruct Ho as [Ho|[]]. left. auto.
    + destruct Ho as [Ho|[Ho|[]]]; [left; auto|right; eauto].
  - intros Hj. rewrite Hj. reflexivity.
  - intros jk q Hj. rewrite Hj. split; [left | right; left]; reflexivity.
Qed.

Lemma Joke_canceled_witness :
  Joke server_down true ls_empty = [(Err ErrCanceled, ls_empty)]
  /\ In (Err ErrCanceled, ls_one_joke) (Joke server_down true ls_one_joke)
  /\ In (Ok "j", set_jokeChan [] ls_one_joke) (Joke server_down true ls_one_joke).
Proof.
  destruct (Joke_canceled server_down ls_empty) as [_ [_ [H _]]].
  destruct (Joke_canceled server_down ls_one_joke) as [_ [_ [_ H']]].
  split; [apply H; reflexivity |].
  apply (H' "j" []). reflexivity.
Defined.

(** C5 (counterexample): cancelled context and one queued joke: returning
    the joke is one of the outcomes, so cancellation does not take
    precedence. *)
Lemma Joke_canceled_may_serve_joke :
  Joke server_down true ls_one_joke
  = [(Err ErrCanceled, ls_one_joke); (Ok "j", set_jokeChan [] ls_one_joke)].
Proof. reflexivity. Qed.

Definition server_429 : nat -> request -> option response :=
  fun _ _ => Some (mkResponse 429 [("Retry-After", ["2"])] (BodyBytes None)).

(** C8: a rate-limit error of the synchronous name fetch on the miss path
    is returned as it is, after that single request; the joke fetch of
    the partial-hit path never yields a rate-limit error. *)
Theorem Joke_surfaces_rateLimit (server : nat -> request -> option response)
  (ls ls1 : LaffService) (r : Z)
  (Hj : jokeChan ls = []) (Hn : nameChan ls = [])
  (Hf : fetchName server ls = (Err (rateLimitError r), ls1)) :
  Joke server false ls = [(Err (rateLimitError r), ls1)]
  /\ calls ls1 = calls ls ++ [name_request]
  /\ (forall ls' n r', fst (fetchJoke server ls' n) <> Err (rateLimitError r')).
Proof.
  split; [| split].
  - unfold Joke. rewrite Hj, Hn. cbn -[fetchName]. rewrite Hf. reflexivity.
  - pose proof (fetchName_calls server ls) as Hc. rewrite Hf in Hc. exact Hc.
  - intros ls' n r'. apply fetchJoke_not_rateLimit.
Qed.

Lemma Joke_surfaces_rateLimit_witness :
  Joke server_429 false ls_empty
  = [(Err (rateLimitError 2), snd (fetchName server_429 ls_empty))]
  /\ calls (snd (fetchName server_429 ls_empty)) = calls ls_empty ++ [name_request]
  /\ (forall ls' n r', fst (fetchJoke server_429 ls' n) <> Err (rateLimitError r')).
Proof.
  apply (Joke_surfaces_rateLimit server_429 ls_empty
           (snd (fetchName server_429 ls_empty)) 2); reflexivity.
Defined.

(** C9: a 200 joke response whose JSON body decodes, to any [jr], with
    an empty [value.joke] makes [fetchJoke] return the empty string with
    no error, whatever [type] and the other members hold; so does every
    [Joke] call served by [fetchJoke], from a queued name or from a
    freshly fetched one.  [null], [{}], [{"type": t}],
    [{"value": {"id": 3}}] and [{"type": "failure", "value": {}}] are
    such bodies. *)
Theorem fetchJoke_empty_joke (server : nat -> request -> option response)
  (name : NameResp) (hdr : list (string * list string)) (doc : option json)
  (jr : JokeResp)
  (Hu : Unmarshal_JokeResp doc = Some jr) (He : Joke_ (Value jr) = "") :
  (forall ls, server (List.length (calls ls)) (joke_request name)
                = Some (mkResponse 200 hdr (BodyBytes doc)) ->
     fst (fetchJoke server ls name) = Ok "")
  /\ (forall ls q, jokeChan ls = [] -> nameChan ls = name :: q ->
        server (List.length (calls ls)) (joke_request name)
          = Some (mkResponse 200 hdr (BodyBytes doc)) ->
        map fst (Joke server false ls) = [Ok ""])
  /\ (forall ls, jokeChan ls = [] -> nameChan ls = [] ->
        fst (fetchName server ls) = Ok name ->
        server (S (List.length (calls ls))) (joke_request name)
          = Some (mkResponse 200 hdr (BodyBytes doc)) ->
        map fst (Joke server false ls) = [Ok ""])
  /\ (forall t,
        map Unmarshal_JokeResp
          [Some JNull; Some (JObj []); Some (JObj [("type", JStr t)]);
           Some (JObj [("value", JObj [("id", JInt 3)])]);
           Some (JObj [("type", JStr "failure"); ("value", JObj [])])]
        = [Some zero_JokeResp; Some zero_JokeResp; Some (mkJokeResp t zero_JokeValue);
           Some (mkJokeResp "" (mkJokeValue 3 "" []));
           Some (mkJokeResp "failure" zero_JokeValue)]).
Proof.
  assert (Hf : forall ls, server (List.length (calls ls)) (joke_request name)
                            = Some (mkResponse 200 hdr (BodyBytes doc)) ->
                 fst (fetchJoke server ls name) = Ok "").
  { intros ls Hr. unfold fetchJoke, client_Do. cbn -[Unmarshal_JokeResp joke_request].
    rewrite Hr. cbn -[Unmarshal_JokeResp]. rewrite Hu. cbn [fst]. rewrite He. reflexivity. }
  split; [exact Hf | split; [| split]].
  - intros ls q Hj Hn Hr. unfold Joke. rewrite Hj, Hn. cbn -[fetchJoke].
    rewrite Hf; [reflexivity | exact Hr].
  - intros ls Hj Hn Hfn Hr. unfold Joke. rewrite Hj, Hn. cbn -[fetchName fetchJoke].
    rewrite fetchName_response, Hfn. cbn -[fetchJoke].
    rewrite Hf; [reflexivity |].
    cbn [calls set_calls]. rewrite length_app, Nat.add_comm. exact Hr.
  - intros t. reflexivity.
Qed.

Definition no_joke_doc : json := JObj [("value", JObj [("id", JInt 3)])].

Definition server_empty_joke : nat -> request -> option response :=
  fun _ _ => Some (mkResponse 200 [] (BodyBytes (Some no_joke_doc))).

Lemma fetchJoke_empty_joke_witness :
  fst (fetchJoke server_empty_joke ls_one_name nm0) = Ok ""
  /\ map fst (Joke server_empty_joke false ls_one_name) = [Ok ""].
Proof.
  destruct (fetchJoke_empty_joke server_empty_joke nm0 [] (Some no_joke_doc)
              (mkJokeResp "" (mkJokeValue 3 "" [])) eq_refl eq_refl)
    as [H1 [H2 _]].
  split.
  - apply H1. reflexivity.
  - apply (H2 ls_one_name []); reflexivity.
Defined.

(** C10: on the partial-hit path a failed joke fetch is returned and the
    name popped from the name cache is not put back. *)
Theorem Joke_partial_hit_failure_drops_name
  (server : nat -> request -> option response) (ls : LaffService)
  (nm : NameResp) (q : list NameResp) (e : error)
  (Hj : jokeChan ls = []) (Hn : nameChan ls = nm :: q)
  (Hf : fst (fetchJoke server (set_nameChan q ls) nm) = Err e) :
  exists ls', Joke server false ls = [(Err e, ls')] /\ nameChan ls' = q.
Proof.
  unfold Joke. rewrite Hj, Hn. cbn -[fetchJoke].
  pose proof (fetchJoke_nameChan server (set_nameChan q ls) nm) as Hc.
  destruct (fetchJoke server (set_nameChan q ls) nm) as [r ls'] eqn:E.
  cbn in Hf, Hc. subst r. exists ls'. split; [reflexivity | exact Hc].
Qed.

Lemma Joke_partial_hit_failure_drops_name_witness :
  exists ls', Joke server_down false ls_one_name = [(Err ErrTransport, ls')]
              /\ nameChan ls' = [].
Proof.
  apply (Joke_partial_hit_failure_drops_name server_down ls_one_name nm0 []);
    reflexivity.
Defined.

(** ** RunCache: the pacing interval *)

(** C4 (code bug): [New 7 10] succeeds, but starting the cache with seven
    workers divides by [6 / 7 = 0] and panics. *)
Theorem RunCache_seven_workers_panics :
  New 7 10 = Some (Ok (mkLaffService [] [] 7 10 0 0 0 []))
  /\ RunCache_start (mkLaffService [] [] 7 10 0 0 0 []) = None.
Proof. split; reflexivity. Qed.

(** The interval is positive for one to six workers and undefined (a
    division-by-zero panic) for every larger count. *)
Lemma sleepInterval_cases (n : Z) :
  (1 <= n <= 6 -> exists d, sleepInterval n = Some d /\ 0 < d)
  /\ (7 <= n -> sleepInterval n = None).
Proof.
  split.
  - intros Hn.
    assert (n = 1 \/ n = 2 \/ n = 3 \/ n = 4 \/ n = 5 \/ n = 6) as H by lia.
    destruct H as [-> | [-> | [-> | [-> | [-> | ->]]]]]; eexists; split; reflexivity.
  - intros Hn. unfold sleepInterval, go_div.
    replace (n =? 0) with false by (symmetry; apply Z.eqb_neq; lia).
    rewrite Z.quot_small by lia. reflexivity.
Qed.

(** ** RunCache: error thresholds *)

(** [k] steps of a composer whose steps are all deterministic (the
    retry loop), following the first possible move. *)
Fixpoint run_composer (server : nat -> request -> option response) (k : nat)
  (c : composer) (ls : LaffService) : composer * LaffService :=
  match k with
  | O => (c, ls)
  | S k' =>
      match composer_step server false c ls with
      | (c', ls') :: _ => run_composer server k' c' ls'
      | [] => (c, ls)
      end
  end.

Definition ls_one_worker : LaffService := mkLaffService [] [] 1 10 0 0 0 [].

(** C2 (code bug): a composer whose joke fetches keep failing has made 50
    failed fetches, the joke-stage counter is at [maxErrs], and it does
    not stop: its exit test reads the name-stage counter, which is 0, so
    it issues a 51st fetch. *)
Theorem composer_ignores_jokeErrs :
  let '(c, ls) := run_composer server_down 50 (CFetch nm0) ls_one_worker in
  c = CFetch nm0 /\ jokeErrs ls = maxErrs /\ nameErrs ls = 0
  /\ List.length (calls ls) = 50%nat
  /\ map (fun x => (fst x, List.length (calls (snd x))))
         (composer_step server_down false c ls) = [(CFetch nm0, 51%nat)].
Proof. vm_compute. repeat split. Qed.

(** A failed name fetch that brings the name-stage counter to [maxErrs]
    ends the producer. *)
Lemma producer_exits_at_maxErrs (server : nat -> request -> option response)
  (iv : Z) (ctx_done : bool) (ls : LaffService) (e : error)
  (He : forall r, e <> rateLimitError r)
  (Hf : fst (fetchName server ls) = Err e)
  (Hn : nameErrs ls = maxErrs - 1) :
  map fst (producer_step server iv ctx_done PFetch ls) = [(0, PExit)].
Proof.
  unfold producer_step. rewrite fetchName_response. cbn -[fetchName].
  rewrite Hf. destruct e; try (exfalso; eapply He; reflexivity);
  cbn; rewrite Hn; reflexivity.
Qed.

(** ** RunCache: rate-limit backoff *)

Definition server_retry (h : string) : nat -> request -> option response :=
  fun _ _ => Some (mkResponse 429 [("Retry-After", [h])] (BodyBytes None)).

(** C3 (code bug): [time.Duration(v.retry+5) * time.Second] wraps around
    in 64 bits.  With [Retry-After: 18446744069] the producer waits
    290448384 ns (about 0.29 s) instead of R + 5 seconds, and with
    [Retry-After: -5] [time.NewTicker] gets a zero duration and panics. *)
Theorem producer_rateLimit_wraps :
  map fst (producer_step (server_retry "18446744069") (60 * Second) false PFetch ls_empty)
    = [(0, PRateWait 290448384)]
  /\ 290448384 <> (18446744069 + 5) * Second
  /\ map fst (producer_step (server_retry "-5") (60 * Second) false PFetch ls_empty)
    = [(0, PPanic)].
Proof. vm_compute. repeat split; discriminate. Qed.

Lemma wrap64_small (z : Z) : int64_min <= z <= int64_max -> wrap64 z = z.
Proof.
  unfold wrap64, int64_min, int64_max. intros H.
  rewrite Z.mod_small by lia. lia.
Qed.

(** Where the durations do not overflow, a rate-limit error with delay R
    leaves the name-stage counter as it is and parks the producer on a
    ticker of exactly R + 5 seconds, after which it fetches again (or
    returns on cancellation). *)
Lemma producer_rateLimit_waits (server : nat -> request -> option response)
  (iv : Z) (ctx_done : bool) (ls : LaffService) (R : Z)
  (HR : -5 < R) (Hmax : (R + 5) * Second <= int64_max)
  (Hf : fst (fetchName server ls) = Err (rateLimitError R)) :
  producer_step server iv ctx_done PFetch ls
    = [(0, PRateWait ((R + 5) * Second), snd (fetchName server ls))]
  /\ nameErrs (snd (fetchName server ls)) = nameErrs ls
  /\ producer_step server iv ctx_done (PRateWait ((R + 5) * Second))
                   (snd (fetchName server ls))
     = (if ctx_done then [(0, PExit, snd (fetchName server ls))] else [])
       ++ [((R + 5) * Second, PFetch, snd (fetchName server ls))].
Proof.
  unfold Second in *. split; [| split].
  - unfold producer_step. rewrite (fetchName_response server ls). cbn -[fetchName].
    rewrite Hf. cbn -[wrap64].
    rewrite (wrap64_small (R + 5)) by (unfold int64_min, int64_max in *; lia).
    unfold Second. rewrite wrap64_small by (unfold int64_min, int64_max in *; lia).
    replace ((R + 5) * 1000000000 <=? 0) with false by (symmetry; apply Z.leb_gt; lia).
    reflexivity.
  - rewrite fetchName_response. reflexivity.
  - reflexivity.
Qed.

(** ** fetchName: the 429 branch *)

(** A decimal numeral, written from its digits (most significant first),
    and the integer it denotes. *)
Definition string_of_digits (ds : list nat) : string :=
  fold_right (fun d s => String (ascii_of_nat (48 + d)) s) EmptyString ds.

Definition digits_number (ds : list nat) : Z :=
  fold_left (fun a d => a * 10 + Z.of_nat d) ds 0.

Lemma digit_char (d : nat) :
  (d < 10)%nat ->
  is_digit (ascii_of_nat (48 + d)) = true /\ digit_val (ascii_of_nat (48 + d)) = Z.of_nat d.
Proof.
  intros Hd. unfold is_digit, digit_val.
  rewrite nat_ascii_embedding by lia. split.
  - apply andb_true_intro. split; apply Nat.leb_le; lia.
  - lia.
Qed.

Lemma digits_value_digits (ds : list nat) (acc : Z) :
  Forall (fun d => d < 10)%nat ds ->
  digits_value acc (string_of_digits ds)
  = Some (fold_left (fun a d => a * 10 + Z.of_nat d) ds acc).
Proof.
  revert acc. induction ds as [|d ds IH]; intros acc HF; [reflexivity|].
  inversion HF as [|? ? Hd HF']; subst. cbn [string_of_digits fold_right digits_value fold_left].
  destruct (digit_char d Hd) as [H1 H2]. rewrite H1, H2. apply IH. exact HF'.
Qed.

Lemma fold_digits_nonneg (ds : list nat) (acc : Z) :
  0 <= acc -> 0 <= fold_left (fun a d => a * 10 + Z.of_nat d) ds acc.
Proof.
  revert acc. induction ds as [|d ds IH]; intros acc Ha; cbn; [lia|].
  apply IH. lia.
Qed.

(** A string starting with a digit has no sign for [Atoi]. *)
Lemma Atoi_unsigned (c : ascii) (r : string) :
  is_digit c = true ->
  Atoi (String c r) =
  match digits_value 0 (String c r) with
  | None => None
  | Some u => if (int64_min <=? u) && (u <=? int64_max) then Some u else None
  end.
Proof.
  intros Hc.
  destruct c as [[] [] [] [] [] [] [] []]; try discriminate; reflexivity.
Qed.

(** [Atoi] reads a decimal numeral that fits an [int] as its value. *)
Lemma Atoi_digits (ds : list nat) :
  ds <> [] -> Forall (fun d => d < 10)%nat ds -> digits_number ds <= int64_max ->
  Atoi (string_of_digits ds) = Some (digits_number ds).
Proof.
  intros Hne HF Hm. destruct ds as [|d ds']; [congruence|].
  inversion HF as [|? ? Hd HF']; subst.
  change (string_of_digits (d :: ds'))
    with (String (ascii_of_nat (48 + d)) (string_of_digits ds')).
  rewrite Atoi_unsigned by (apply digit_char; exact Hd).
  change (String (ascii_of_nat (48 + d)) (string_of_digits ds'))
    with (string_of_digits (d :: ds')).
  rewrite digits_value_digits by exact HF. fold (digits_number (d :: ds')).
  pose proof (fold_digits_nonneg (d :: ds') 0 ltac:(lia)) as Hn.
  fold (digits_number (d :: ds')) in Hn.
  replace ((int64_min <=? digits_number (d :: ds')) && (digits_number (d :: ds') <=? int64_max))
    with true; [reflexivity|].
  symmetry. apply andb_true_intro. split; apply Z.leb_le; unfold int64_min in *; lia.
Qed.

(** C6: once the name response has been read, a 429 gives the rate-limit
    error with the delay [Atoi] reads from [Retry-After], 90 when the
    header is absent or empty (and whenever [Atoi] fails), the numeral's
    value when it is a decimal numeral fitting an [int]; any other
    non-200 status gives the status error with code and [StatusText]. *)
Theorem fetchName_non200 (server : nat -> request -> option response)
  (ls : LaffService) (resp : response) (b : option json)
  (Hr : server (List.length (calls ls)) name_request = Some resp)
  (Hb : Body resp = BodyBytes b) :
  (StatusCode resp = 429 ->
     fst (fetchName server ls)
       = Err (rateLimitError (match Atoi (Header_Get (Header resp) "Retry-After") with
                              | Some v => v | None => dfltRetry end))
     /\ (Header_Get (Header resp) "Retry-After" = "" ->
           fst (fetchName server ls) = Err (rateLimitError dfltRetry))
     /\ (forall ds, ds <> [] -> Forall (fun d => d < 10)%nat ds ->
           digits_number ds <= int64_max ->
           Header_Get (Header resp) "Retry-After" = string_of_digits ds ->
           fst (fetchName server ls) = Err (rateLimitError (digits_number ds))))
  /\ (StatusCode resp <> 200 -> StatusCode resp <> 429 ->
     fst (fetchName server ls)
       = Err (ErrHTTPStatus "name" (StatusCode resp) (StatusText (StatusCode resp)))).
Proof.
  split.
  - intros H429.
    assert (E : fst (fetchName server ls)
       = Err (rateLimitError (match Atoi (Header_Get (Header resp) "Retry-After") with
                              | Some v => v | None => dfltRetry end))).
    { unfold fetchName, client_Do. cbn -[Atoi Header_Get].
      rewrite Hr. cbn -[Atoi Header_Get]. rewrite Hb, H429. reflexivity. }
    split; [exact E | split].
    + intros Hh. rewrite E, Hh. reflexivity.
    + intros ds Hne HF Hm Hh. rewrite E, Hh, Atoi_digits by assumption. reflexivity.
  - intros H200 H429. unfold fetchName, client_Do. cbn -[Atoi Header_Get StatusText].
    rewrite Hr. cbn -[Atoi Header_Get StatusText]. rewrite Hb.
    replace (StatusCode resp =? 200) with false by (symmetry; apply Z.eqb_neq; exact H200).
    replace (StatusCode resp =? 429) with false by (symmetry; apply Z.eqb_neq; exact H429).
    reflexivity.
Qed.

Definition resp_429 : response :=
  mkResponse 429 [("Retry-After", ["2"])] (BodyBytes None).

Lemma fetchName_non200_witness :
  (StatusCode resp_429 = 429 ->
     fst (fetchName server_429 ls_empty)
       = Err (rateLimitError (match Atoi (Header_Get (Header resp_429) "Retry-After") with
                              | Some v => v | None => dfltRetry end))
     /\ (Header_Get (Header resp_429) "Retry-After" = "" ->
           fst (fetchName server_429 ls_empty) = Err (rateLimitError dfltRetry))
     /\ (forall ds, ds <> [] -> Forall (fun d => d < 10)%nat ds ->
           digits_number ds <= int64_max ->
           Header_Get (Header resp_429) "Retry-After" = string_of_digits ds ->
           fst (fetchName server_429 ls_empty) = Err (rateLimitError (digits_number ds))))
  /\ (StatusCode resp_429 <> 200 -> StatusCode resp_429 <> 429 ->
     fst (fetchName server_429 ls_empty)
       = Err (ErrHTTPStatus "name" (StatusCode resp_429) (StatusText (StatusCode resp_429)))).
Proof. apply (fetchName_non200 server_429 ls_empty resp_429 None); reflexivity. Defined.

(** ** fetchJoke: the request URL and the result *)

Definition unhex (c : ascii) : option nat :=
  let n := nat_of_ascii c in
  if ((48 <=? n) && (n <=? 57))%nat then Some (n - 48)%nat
  else if ((97 <=? n) && (n <=? 102))%nat then Some (n - 97 + 10)%nat
  else if ((65 <=? n) && (n <=? 70))%nat then Some (n - 65 + 10)%nat
  else None.

(** [url.QueryUnescape]: '+' is a space, "%XY" a byte, a bad escape an
    error. *)
Fixpoint QueryUnescape (s : string) : option string :=
  match s with
  | EmptyString => Some EmptyString
  | String "%"%char (String h (String l rest)) =>
      match unhex h, unhex l, QueryUnescape rest with
      | Some a, Some b, Some r => Some (String (ascii_of_nat (a * 16 + b)) r)
      | _, _, _ => None
      end
  | String "%"%char _ => None
  | String "+"%char rest => option_map (String " ") (QueryUnescape rest)
  | String c rest => option_map (String c) (QueryUnescape rest)
  end.

Fixpoint string_forallb (f : ascii -> bool) (s : string) : bool :=
  match s with
  | EmptyString => true
  | String c s' => f c && string_forallb f s'
  end.

(** Characters that can appear in an escaped query component: none of
    them is a query delimiter ('&', '=', ';', '#') or a space. *)
Definition query_safe (c : ascii) : bool :=
  is_alnum c || Ascii.eqb c "-" || Ascii.eqb c "_" || Ascii.eqb c "."
  || Ascii.eqb c "~" || Ascii.eqb c "%" || Ascii.eqb c "+".

Definition escape_char (c : ascii) : string :=
  if Ascii.eqb c " " then "+"
  else if shouldEscape c then String "%" (String (hex_hi c) (String (hex_lo c) ""))
  else String c "".

Lemma QueryEscape_cons (c : ascii) (s : string) :
  QueryEscape (String c s) = escape_char c +++ QueryEscape s.
Proof.
  cbn [QueryEscape]. unfold escape_char.
  destruct (Ascii.eqb c " "); [reflexivity|].
  destruct (shouldEscape c); reflexivity.
Qed.

Lemma unescape_escape_char (c : ascii) (r : string) :
  QueryUnescape (escape_char c +++ r) = option_map (String c) (QueryUnescape r).
Proof. destruct c as [[] [] [] [] [] [] [] []]; reflexivity. Qed.

Lemma escape_char_safe (c : ascii) :
  string_forallb query_safe (escape_char c) = true.
Proof. destruct c as [[] [] [] [] [] [] [] []]; reflexivity. Qed.

Lemma string_forallb_app (f : ascii -> bool) (s t : string) :
  string_forallb f (s +++ t) = string_forallb f s && string_forallb f t.
Proof.
  induction s as [|c s IH]; cbn; [reflexivity|]. rewrite IH, andb_assoc. reflexivity.
Qed.

(** Query escaping is undone by query unescaping. *)
Lemma QueryUnescape_QueryEscape (s : string) :
  QueryUnescape (QueryEscape s) = Some s.
Proof.
  induction s as [|c s IH]; [reflexivity|].
  rewrite QueryEscape_cons, unescape_escape_char, IH. reflexivity.
Qed.

Lemma QueryEscape_safe (s : string) :
  string_forallb query_safe (QueryEscape s) = true.
Proof.
  induction s as [|c s IH]; [reflexivity|].
  rewrite QueryEscape_cons, string_forallb_app, escape_char_safe, IH. reflexivity.
Qed.

Lemma encodeJokeURL_shape (f s : string) :
  encodeJokeURL f s
  = "http://api.icndb.com/jokes/random?firstName=" +++ QueryEscape f
    +++ "&lastName=" +++ QueryEscape s +++ "&limitTo=nerdy".
Proof. reflexivity. Qed.

(** C7: [fetchJoke] issues one GET of the joke endpoint whose query is
    firstName, lastName (query-escaped, so they decode back to the name
    and contain no query delimiter) and limitTo=nerdy; on a 200 response
    whose body decodes it returns the decoded [value.joke]. *)
Theorem fetchJoke_request_and_result (server : nat -> request -> option response)
  (ls : LaffService) (name : NameResp) :
  calls (snd (fetchJoke server ls name))
    = calls ls ++ [mkRequest "GET"
        ("http://api.icndb.com/jokes/random?firstName=" +++ QueryEscape (Name name)
         +++ "&lastName=" +++ QueryEscape (Surname name) +++ "&limitTo=nerdy")
        "application/json"]
  /\ QueryUnescape (QueryEscape (Name name)) = Some (Name name)
  /\ QueryUnescape (QueryEscape (Surname name)) = Some (Surname name)
  /\ string_forallb query_safe (QueryEscape (Name name)) = true
  /\ string_forallb query_safe (QueryEscape (Surname name)) = true
  /\ (forall hdr doc jr,
        server (List.length (calls ls)) (joke_request name)
          = Some (mkResponse 200 hdr (BodyBytes doc)) ->
        Unmarshal_JokeResp doc = Some jr ->
        fst (fetchJoke server ls name) = Ok (Joke_ (Value jr))).
Proof.
  split; [| split; [| split; [| split; [| split]]]].
  - rewrite fetchJoke_calls. unfold joke_request. rewrite encodeJokeURL_shape.
    reflexivity.
  - apply QueryUnescape_QueryEscape.
  - apply QueryUnescape_QueryEscape.
  - apply QueryEscape_safe.
  - apply QueryEscape_safe.
  - intros hdr doc jr Hr Hu. unfold fetchJoke, client_Do.
    cbn -[Unmarshal_JokeResp joke_request]. rewrite Hr.
    cbn -[Unmarshal_JokeResp]. rewrite Hu. reflexivity.
Qed.

Definition joke_doc : json :=
  JObj [("type", JStr "success");
        ("value", JObj [("id", JInt 1); ("joke", JStr "Ryan Gonzalez made joke 0")])].

Definition server_joke : nat -> request -> option response :=
  fun _ _ => Some (mkResponse 200 [] (BodyBytes (Some joke_doc))).

Definition nm_reserved : NameResp := mkNameResp "Ana Mar&a" "O'Neil=1" "female" "x".

Lemma fetchJoke_request_and_result_witness :
  calls (snd (fetchJoke server_joke ls_empty nm_reserved))
    = [mkRequest "GET"
        "http://api.icndb.com/jokes/random?firstName=Ana+Mar%26a&lastName=O%27Neil%3D1&limitTo=nerdy"
        "application/json"]
  /\ fst (fetchJoke server_joke ls_empty nm_reserved) = Ok "Ryan Gonzalez made joke 0".
Proof.
  destruct (fetchJoke_request_and_result server_joke ls_empty nm_reserved)
    as [Hc [_ [_ [_ [_ Hr]]]]].
  split.
  - rewrite Hc. reflexivity.
  - apply (Hr [] (Some joke_doc) (mkJokeResp "success" (mkJokeValue 1 "Ryan Gonzalez made joke 0" [])));
      reflexivity.
Defined.

(** * Further properties of the service *)

(** ** fetchName and fetchJoke: what a response turns into *)

Lemma fetchJoke_response (server : nat -> request -> option response)
  (ls : LaffService) (n : NameResp) :
  fetchJoke server ls n
  = (fst (fetchJoke server ls n), set_calls (calls ls ++ [joke_request n]) ls).
Proof. unfold fetchJoke, client_Do; cbn; break_match; reflexivity. Qed.

(** The string given to key [k] among the members [ms], [dflt] if none. *)
Definition member_str (ms : list (string * json)) (k dflt : string) : string :=
  match find (fun m => String.eqb (fst m) k) ms with
  | Some (_, JStr s) => s
  | _ => dflt
  end.

Definition NameResp_keys : list string := ["name"; "surname"; "gender"; "region"].

Lemma member_str_cons (k' k dflt : string) (v : json) (ms : list (string * json)) :
  member_str ((k', v) :: ms) k dflt
  = if String.eqb k' k then match v with JStr s => s | _ => dflt end
    else member_str ms k dflt.
Proof. unfold member_str. cbn. destruct (String.eqb k' k); reflexivity. Qed.

Lemma member_str_absent (ms : list (string * json)) (k dflt : string) :
  ~ In k (map fst ms) -> member_str ms k dflt = dflt.
Proof.
  induction ms as [|[k' v] ms IH]; intros H; [reflexivity |].
  rewrite member_str_cons. cbn in H.
  destruct (String.eqb k' k) eqn:E.
  - apply String.eqb_eq in E. subst. tauto.
  - apply IH. tauto.
Qed.

Lemma decode_NameResp_members (ms : list (string * json)) (t : NameResp)
  (Hk : Forall (fun m => In (fst m) NameResp_keys /\ exists s, snd m = JStr s) ms)
  (Hd : NoDup (map fst ms)) :
  decode_members NameResp_fields t ms
  = Some (mkNameResp (member_str ms "name" (Name t)) (member_str ms "surname" (Surname t))
                     (member_str ms "gender" (Gender t)) (member_str ms "region" (Region t))).
Proof.
  revert t. induction ms as [|[k v] ms IH]; intros t.
  - destruct t. reflexivity.
  - inversion Hk as [|? ? [Hin [x Hv]] Hk']; subst. cbn [snd] in Hv. subst v.
    inversion Hd as [|? ? Hnot Hd']; subst.
    rewrite !member_str_cons.
    cbn [fst NameResp_keys In] in Hin.
    destruct Hin as [<- | [<- | [<- | [<- | []]]]];
      cbn -[member_str]; rewrite IH by assumption; cbn [Name Surname Gender Region];
      rewrite (member_str_absent ms _ _ Hnot); reflexivity.
Qed.

(** A 200 name response whose body is an object of distinct members
    among name, surname, gender and region, each a string, in any order,
    decodes to the record holding those strings, a missing member giving
    the empty string. *)
Theorem fetchName_decodes (server : nat -> request -> option response)
  (ls : LaffService) (hdr : list (string * list string)) (ms : list (string * json))
  (Hk : Forall (fun m => In (fst m) NameResp_keys /\ exists s, snd m = JStr s) ms)
  (Hd : NoDup (map fst ms))
  (Hr : server (List.length (calls ls)) name_request
        = Some (mkResponse 200 hdr (BodyBytes (Some (JObj ms))))) :
  fst (fetchName server ls)
  = Ok (mkNameResp (member_str ms "name" "") (member_str ms "surname" "")
                   (member_str ms "gender" "") (member_str ms "region" "")).
Proof.
  unfold fetchName, client_Do. cbn -[Unmarshal_NameResp]. rewrite Hr.
  cbn -[decode_members member_str].
  rewrite decode_NameResp_members by assumption. reflexivity.
Qed.

Definition name_members (nm : NameResp) : list (string * json) :=
  [("region", JStr (Region nm)); ("name", JStr (Name nm));
   ("gender", JStr (Gender nm)); ("surname", JStr (Surname nm))].

Definition server_name (nm : NameResp) : nat -> request -> option response :=
  fun _ _ => Some (mkResponse 200 [] (BodyBytes (Some (JObj (name_members nm))))).

Lemma fetchName_decodes_witness :
  fst (fetchName (server_name nm0) ls_empty) = Ok nm0.
Proof.
  rewrite (fetchName_decodes (server_name nm0) ls_empty [] (name_members nm0)).
  - reflexivity.
  - repeat (constructor; [split; [cbn; tauto | eexists; reflexivity] |]). constructor.
  - repeat (constructor; [cbn; intuition discriminate |]). constructor.
  - reflexivity.
Defined.

(** A 200 name response whose body is [{}] or [null] is a success with
    empty names (nothing checks them), and on a cache miss [Joke] then
    asks the joke service for the empty first and last name. *)
Theorem fetchName_accepts_empty (server : nat -> request -> option response)
  (ls : LaffService) (hdr : list (string * list string)) (doc : json)
  (Hdoc : doc = JObj [] \/ doc = JNull)
  (Hr : server (List.length (calls ls)) name_request
        = Some (mkResponse 200 hdr (BodyBytes (Some doc)))) :
  fst (fetchName server ls) = Ok zero_NameResp
  /\ joke_request zero_NameResp
     = mkRequest "GET" "http://api.icndb.com/jokes/random?firstName=&lastName=&limitTo=nerdy"
         "application/json"
  /\ (jokeChan ls = [] -> nameChan ls = [] ->
      exists r ls', Joke server false ls = [(r, ls')]
        /\ calls ls' = calls ls ++ [name_request; joke_request zero_NameResp]).
Proof.
  assert (Hf : fst (fetchName server ls) = Ok zero_NameResp).
  { unfold fetchName, client_Do. cbn -[Unmarshal_NameResp]. rewrite Hr.
    destruct Hdoc as [-> | ->]; reflexivity. }
  split; [exact Hf | split; [reflexivity |]].
  intros Hj Hn. unfold Joke. rewrite Hj, Hn. cbn -[fetchName fetchJoke].
  rewrite fetchName_response, Hf. cbn -[fetchJoke].
  rewrite fetchJoke_response.
  eexists; eexists; split; [reflexivity |]. cbn. rewrite <- app_assoc. reflexivity.
Qed.

Definition server_empty_name : nat -> request -> option response :=
  fun _ _ => Some (mkResponse 200 [] (BodyBytes (Some (JObj [])))).

Lemma fetchName_accepts_empty_witness :
  fst (fetchName server_empty_name ls_empty) = Ok zero_NameResp
  /\ joke_request zero_NameResp
     = mkRequest "GET" "http://api.icndb.com/jokes/random?firstName=&lastName=&limitTo=nerdy"
         "application/json"
  /\ (jokeChan ls_empty = [] -> nameChan ls_empty = [] ->
      exists r ls', Joke server_empty_name false ls_empty = [(r, ls')]
        /\ calls ls' = calls ls_empty ++ [name_request; joke_request zero_NameResp]).
Proof.
  apply (fetchName_accepts_empty server_empty_name ls_empty [] (JObj [])).
  - left. reflexivity.
  - reflexivity.
Defined.

(** [fetchName] yields a rate-limit error exactly when the name service
    answered 429 with a readable body, the delay being the one read from
    [Retry-After]. *)
Theorem fetchName_rateLimit_iff (server : nat -> request -> option response)
  (ls : LaffService) (r : Z) :
  fst (fetchName server ls) = Err (rateLimitError r)
  <-> exists resp b,
        server (List.length (calls ls)) name_request = Some resp
        /\ Body resp = BodyBytes b /\ StatusCode resp = 429
        /\ r = match Atoi (Header_Get (Header resp) "Retry-After") with
               | Some v => v | None => dfltRetry end.
Proof.
  unfold fetchName, client_Do. cbn -[Atoi Header_Get StatusText Unmarshal_NameResp].
  destruct (server (List.length (calls ls)) name_request) as [resp|] eqn:Hs.
  - cbn -[Atoi Header_Get StatusText Unmarshal_NameResp].
    split.
    + destruct (Body resp) as [| |b] eqn:Hb; cbn; try discriminate.
      destruct (StatusCode resp =? 200) eqn:E2; cbn.
      * destruct (Unmarshal_NameResp b); discriminate.
      * destruct (StatusCode resp =? 429) eqn:E4; [| discriminate].
        intros H. injection H as <-. exists resp, b.
        split; [reflexivity | split; [exact Hb | split; [apply Z.eqb_eq; exact E4 | reflexivity]]].
    + intros (resp' & b & Hs' & Hb & H429 & ->). injection Hs' as <-.
      rewrite Hb, H429. reflexivity.
  - cbn. split; [discriminate | intros (resp' & b & Hs' & _); discriminate].
Qed.



(** ** Invariants of [Joke] and the cache goroutines *)

Ltac in_outcomes H :=
  repeat match type of H with
  | In _ (_ ++ _) => apply in_app_or in H
  | In _ (if ?b then _ else _) => let E := fresh "E" in destruct b eqn:E
  | In _ (match ?x with _ => _ end) => let E := fresh "E" in destruct x eqn:E
  | In _ [] => destruct H
  | In _ (_ :: _) => destruct H as [H | H]
  | _ \/ _ => destruct H as [H | H]
  | False => destruct H
  end.

(** [Joke] never refills a cache: each outcome leaves the channels as
    they were or with exactly one item taken from the front of one of
    them. *)
Theorem Joke_takes_at_most_one (server : nat -> request -> option response)
  (ctx_done : bool) (ls : LaffService) (o : result string * LaffService)
  (Ho : In o (Joke server ctx_done ls)) :
  (nameChan (snd o) = nameChan ls
   /\ (jokeChan (snd o) = jokeChan ls
       \/ exists jk, jokeChan ls = jk :: jokeChan (snd o)))
  \/ (jokeChan (snd o) = jokeChan ls
      /\ exists nm, nameChan ls = nm :: nameChan (snd o)).
Proof.
  unfold Joke in Ho.
  destruct ctx_done, (jokeChan ls) eqn:Hj, (nameChan ls) eqn:Hn;
    cbn -[fetchName fetchJoke] in Ho;
    try rewrite fetchName_response in Ho; cbn -[fetchName fetchJoke] in Ho;
    in_outcomes Ho; subst o; cbn [snd]; try rewrite fetchJoke_response; cbn;
    rewrite ?Hj, ?Hn; eauto.
Qed.

Lemma Joke_takes_at_most_one_witness :
  exists o, In o (Joke server_down false ls_one_name)
  /\ ((nameChan (snd o) = nameChan ls_one_name
       /\ (jokeChan (snd o) = jokeChan ls_one_name
           \/ exists jk, jokeChan ls_one_name = jk :: jokeChan (snd o)))
      \/ (jokeChan (snd o) = jokeChan ls_one_name
          /\ exists nm, nameChan ls_one_name = nm :: nameChan (snd o))).
Proof.
  exists (Err ErrTransport, snd (fetchJoke server_down (set_nameChan [] ls_one_name) nm0)).
  assert (H : In (Err ErrTransport, snd (fetchJoke server_down (set_nameChan [] ls_one_name) nm0))
                 (Joke server_down false ls_one_name)) by (left; reflexivity).
  split; [exact H |].
  exact (Joke_takes_at_most_one server_down false ls_one_name _ H).
Defined.


(** ** The composer's retry loop *)

Lemma fetchJoke_fails (server : nat -> request -> option response)
  (Hfail : forall i req, match server i req with
                         | Some resp => StatusCode resp <> 200
                         | None => True end)
  (ls : LaffService) (n : NameResp) :
  exists e, fst (fetchJoke server ls n) = Err e.
Proof.
  unfold fetchJoke, client_Do. cbn -[joke_request StatusText].
  specialize (Hfail (List.length (calls ls)) (joke_request n)).
  destruct (server (List.length (calls ls)) (joke_request n)) as [resp|];
    cbn -[StatusText]; [| eauto].
  destruct (Body resp); cbn -[StatusText]; eauto.
  replace (StatusCode resp =? 200) with false by (symmetry; apply Z.eqb_neq; exact Hfail).
  cbn. eauto.
Qed.

(** With a joke service that never answers 200 and the name-stage
    counter off 50, a composer retries the same name without pause or
    bound: after k steps it is still about to fetch, has issued k more
    identical joke requests, has counted them in [jokeErrs], and has not
    touched the name counter or either channel. *)
Theorem composer_retries_without_bound (server : nat -> request -> option response)
  (Hfail : forall i req, match server i req with
                         | Some resp => StatusCode resp <> 200
                         | None => True end)
  (nm : NameResp) (k : nat) (ls : LaffService)
  (Hne : nameErrs ls <> maxErrs) (Hj : 0 <= jokeErrs ls)
  (Hk : jokeErrs ls + Z.of_nat k <= int64_max) :
  let '(c, ls') := run_composer server k (CFetch nm) ls in
  c = CFetch nm /\ jokeErrs ls' = jokeErrs ls + Z.of_nat k
  /\ nameErrs ls' = nameErrs ls /\ nameChan ls' = nameChan ls
  /\ jokeChan ls' = jokeChan ls
  /\ calls ls' = calls ls ++ repeat (joke_request nm) k.
Proof.
  revert ls Hne Hj Hk. induction k as [|k IH]; intros ls Hne Hj Hk.
  - cbn. rewrite app_nil_r. repeat split; try reflexivity. lia.
  - destruct (fetchJoke_fails server Hfail ls nm) as [e He].
    assert (Hs : composer_step server false (CFetch nm) ls
                 = [(CFetch nm, set_jokeErrs (jokeErrs ls + 1)
                                  (set_calls (calls ls ++ [joke_request nm]) ls))]).
    { unfold composer_step. rewrite fetchJoke_response. cbn -[fetchJoke wrap64].
      rewrite He. cbn -[wrap64].
      rewrite wrap64_small by (unfold int64_min, int64_max in *; lia).
      replace (nameErrs ls =? maxErrs) with false
        by (symmetry; apply Z.eqb_neq; exact Hne).
      reflexivity. }
    cbn [run_composer]. rewrite Hs.
    set (ls1 := set_jokeErrs (jokeErrs ls + 1) (set_calls (calls ls ++ [joke_request nm]) ls)).
    assert (Hj1 : 0 <= jokeErrs ls1) by (change (jokeErrs ls1) with (jokeErrs ls + 1); lia).
    assert (Hk1 : jokeErrs ls1 + Z.of_nat k <= int64_max)
      by (change (jokeErrs ls1) with (jokeErrs ls + 1); lia).
    specialize (IH ls1 Hne Hj1 Hk1).
    destruct (run_composer server k (CFetch nm) ls1) as [c ls'].
    destruct IH as (Hc & H1 & H2 & H3 & H4 & H5).
    change (jokeErrs ls1) with (jokeErrs ls + 1) in H1.
    change (nameErrs ls1) with (nameErrs ls) in H2.
    change (nameChan ls1) with (nameChan ls) in H3.
    change (jokeChan ls1) with (jokeChan ls) in H4.
    change (calls ls1) with (calls ls ++ [joke_request nm]) in H5.
    split; [exact Hc | split; [lia | split; [exact H2 | split; [exact H3 | split; [exact H4 |]]]]].
    rewrite H5. cbn [repeat]. rewrite <- app_assoc. reflexivity.
Qed.

Lemma composer_retries_without_bound_witness :
  let '(c, ls') := run_composer server_down 3 (CFetch nm0) ls_one_worker in
  c = CFetch nm0 /\ jokeErrs ls' = jokeErrs ls_one_worker + Z.of_nat 3
  /\ nameErrs ls' = nameErrs ls_one_worker /\ nameChan ls' = nameChan ls_one_worker
  /\ jokeChan ls' = jokeChan ls_one_worker
  /\ calls ls' = calls ls_one_worker ++ repeat (joke_request nm0) 3.
Proof.
  apply (composer_retries_without_bound server_down (fun _ _ => I) nm0 3 ls_one_worker).
  - discriminate.
  - cbn. lia.
  - cbn. unfold int64_max. lia.
Defined.

(** ** The joke cache is first in, first out *)

(** Composer sends of the jokes [js], in order, each taking the send
    move. *)
Fixpoint compose_sends (server : nat -> request -> option response)
  (js : list string) (ls : LaffService) : LaffService :=
  match js with
  | [] => ls
  | j :: js' =>
      match composer_step server false (CSend j) ls with
      | (_, ls') :: _ => compose_sends server js' ls'
      | [] => ls
      end
  end.

(** [k] successive [Joke] calls, with [ctx] not done. *)
Fixpoint serve (server : nat -> request -> option response) (k : nat)
  (ls : LaffService) : list (result string) :=
  match k with
  | O => []
  | S k' =>
      match Joke server false ls with
      | (r, ls') :: _ => r :: serve server k' ls'
      | [] => []
      end
  end.

Lemma compose_sends_queue (server : nat -> request -> option response)
  (js : list string) (ls : LaffService) :
  Z.of_nat (List.length (jokeChan ls) + List.length js) <= bufLen ls ->
  jokeChan (compose_sends server js ls) = jokeChan ls ++ js.
Proof.
  revert ls. induction js as [|j js IH]; intros ls H; cbn [compose_sends].
  - rewrite app_nil_r. reflexivity.
  - cbn [List.length] in H. cbn -[compose_sends].
    replace (Z.of_nat (List.length (jokeChan ls)) <? bufLen ls) with true
      by (symmetry; apply Z.ltb_lt; lia).
    cbn [app]. rewrite IH; cbn [jokeChan set_jokeChan bufLen].
    + rewrite <- app_assoc. reflexivity.
    + rewrite length_app. cbn [List.length]. lia.
Qed.

Lemma serve_queue (server : nat -> request -> option response) (q : list string)
  (ls : LaffService) :
  jokeChan ls = q -> serve server (List.length q) ls = map Ok q.
Proof.
  revert ls. induction q as [|j q IH]; intros ls Hq; [reflexivity |].
  cbn [List.length serve]. unfold Joke. rewrite Hq. cbn -[serve].
  rewrite IH; reflexivity.
Qed.

(** Jokes leave the cache in the order the composers put them in: after
    composer sends of [js] on top of the queued jokes (within capacity),
    as many [Joke] calls return the queued jokes and then [js], in order,
    all without an upstream call. *)
Theorem jokes_served_in_order (server : nat -> request -> option response)
  (ls : LaffService) (js : list string)
  (H : Z.of_nat (List.length (jokeChan ls) + List.length js) <= bufLen ls) :
  serve server (List.length (jokeChan ls) + List.length js) (compose_sends server js ls)
  = map Ok (jokeChan ls ++ js).
Proof.
  rewrite <- length_app. apply serve_queue. apply compose_sends_queue. exact H.
Qed.

Lemma jokes_served_in_order_witness :
  serve server_down (List.length (jokeChan ls_one_joke) + List.length ["k"; "l"])
        (compose_sends server_down ["k"; "l"] ls_one_joke)
  = map Ok (jokeChan ls_one_joke ++ ["k"; "l"]).
Proof. apply jokes_served_in_order. cbn. lia. Defined.

(** ** main: choosing the log level ([initLogging]) *)

Definition ascii_lower (c : ascii) : ascii :=
  if is_upper_letter c
  then match c with Ascii b0 b1 b2 b3 b4 _ b6 b7 => Ascii b0 b1 b2 b3 b4 true b6 b7 end
  else c.

(** [strings.ToLower], on ASCII letters.  Go also lowers non-ASCII runes
    (turning invalid bytes into U+FFFD), but no non-ASCII rune lowers to
    'd', 'e' or 'v', so for the [HasPrefix(_, "dev")] test below leaving
    the bytes of 128 and above as they are gives Go's answer. *)
Fixpoint ToLower (s : string) : string :=
  match s with
  | EmptyString => EmptyString
  | String c s' => String (ascii_lower c) (ToLower s')
  end.

Fixpoint HasPrefix (s prefix : string) {struct prefix} : bool :=
  match prefix with
  | EmptyString => true
  | String c p' =>
      match s with
      | EmptyString => false
      | String d s' => Ascii.eqb c d && HasPrefix s' p'
      end
  end.

(** The level [initLogging] leaves in [logLevel], from the value of
    [LAFF_LOG_LEVEL] and the [-log] flag. *)
Definition initLogging_level (env logLevel : string) : string :=
  let pdl := ToLower env in
  if HasPrefix pdl "dev" then "development"
  else if HasPrefix logLevel "dev" then "development"
  else "production".

Lemma ascii_lower_mask (c : ascii) (u l : ascii)
  (Hu : is_upper_letter u = true) (Hl : l = ascii_lower u) :
  mask_case c = u -> ascii_lower c = l.
Proof.
  intros H. subst l.
  destruct c as [[] [] [] [] [] [] [] []]; cbn in H; subst u;
    first [discriminate Hu | reflexivity].
Qed.

(** The level is "development" or "production"; [LAFF_LOG_LEVEL] starting
    with "dev" in any letter case selects "development" whatever the flag;
    otherwise the flag decides, and it is compared case-sensitively, so a
    flag of "Development" gives "production". *)
Theorem initLogging_level_choice (env flag : string) :
  (initLogging_level env flag = "development" \/ initLogging_level env flag = "production")
  /\ (forall c1 c2 c3 rest,
        mask_case c1 = "D"%char -> mask_case c2 = "E"%char -> mask_case c3 = "V"%char ->
        env = String c1 (String c2 (String c3 rest)) ->
        initLogging_level env flag = "development")
  /\ (HasPrefix (ToLower env) "dev" = false ->
        (initLogging_level env flag = "development" <-> HasPrefix flag "dev" = true))
  /\ HasPrefix "Development" "dev" = false.
Proof.
  split; [| split; [| split]].
  - unfold initLogging_level. destruct (HasPrefix (ToLower env) "dev"); [left; reflexivity |].
    destruct (HasPrefix flag "dev"); [left | right]; reflexivity.
  - intros c1 c2 c3 rest H1 H2 H3 ->. unfold initLogging_level. cbn [ToLower].
    rewrite (ascii_lower_mask c1 "D" "d"), (ascii_lower_mask c2 "E" "e"),
      (ascii_lower_mask c3 "V" "v") by first [assumption | reflexivity].
    reflexivity.
  - intros He. unfold initLogging_level. rewrite He.
    destruct (HasPrefix flag "dev"); split; first [reflexivity | discriminate].
  - reflexivity.
Qed.

Lemma initLogging_level_choice_witness :
  initLogging_level "DEVel" "production" = "development"
  /\ initLogging_level "" "Development" = "production".
Proof.
  destruct (initLogging_level_choice "DEVel" "production") as [_ [H2 _]].
  destruct (initLogging_level_choice "" "Development") as [H1 [_ [H3 _]]].
  split.
  - apply (H2 "D"%char "E"%char "V"%char "el"); reflexivity.
  - destruct H1 as [H1 | H1]; [| exact H1].
    exfalso. apply H3 in H1; [discriminate H1 | reflexivity].
Defined.

Lemma fetchName_rateLimit_iff_witness :
  fst (fetchName server_429 ls_empty) = Err (rateLimitError 2).
Proof.
  apply (proj2 (fetchName_rateLimit_iff server_429 ls_empty 2)).
  exists resp_429, None. repeat split.
Defined.

(** ** The joke query parses back to the name *)

(** The pieces of a string between '&'s ([strings.Cut] repeated). *)
Fixpoint split_amp (s : string) : list string :=
  match s with
  | EmptyString => [EmptyString]
  | String c s' =>
      if Ascii.eqb c "&" then EmptyString :: split_amp s'
      else match split_amp s' with
           | p :: ps => String c p :: ps
           | [] => [String c EmptyString]
           end
  end.

(** [strings.Cut(s, "=")]: before and after the first '='. *)
Fixpoint cut_eq (s : string) : string * string :=
  match s with
  | EmptyString => (EmptyString, EmptyString)
  | String c s' =>
      if Ascii.eqb c "=" then (EmptyString, s')
      else let '(k, v) := cut_eq s' in (String c k, v)
  end.

Definition string_has (c : ascii) (s : string) : bool :=
  negb (string_forallb (fun d => negb (Ascii.eqb d c)) s).

(** [url.ParseQuery] of Go 1.18: a piece holding ';' is an error and is
    skipped, an empty piece is skipped, a key or value that does not
    unescape is an error; the values of a key are kept in order.  The
    flag is false when an error was met. *)
Definition ParseQuery (q : string) : Values * bool :=
  fold_left
    (fun acc piece =>
       let '(m, ok) := acc in
       if string_has ";" piece then (m, false)
       else if String.eqb piece "" then (m, ok)
       else let '(k, v) := cut_eq piece in
            match QueryUnescape k, QueryUnescape v with
            | Some k', Some v' => (Values_Add m k' v', ok)
            | _, _ => (m, false)
            end)
    (split_amp q) ([], true).

Lemma string_app_assoc (a b c : string) : (a +++ b) +++ c = a +++ b +++ c.
Proof. induction a as [|x a IH]; cbn; [reflexivity | rewrite IH; reflexivity]. Qed.

Lemma string_forallb_impl (f g : ascii -> bool) (s : string) :
  (forall c, f c = true -> g c = true) ->
  string_forallb f s = true -> string_forallb g s = true.
Proof.
  intros Hfg. induction s as [|c s IH]; cbn; [reflexivity|].
  intros H. apply andb_prop in H as [H1 H2]. rewrite (Hfg c H1), (IH H2). reflexivity.
Qed.

Lemma query_safe_delims (c : ascii) :
  query_safe c = true ->
  negb (Ascii.eqb c "&") = true /\ negb (Ascii.eqb c "=") = true
  /\ negb (Ascii.eqb c ";") = true.
Proof. destruct c as [[] [] [] [] [] [] [] []]; cbn; intros H; try discriminate H; auto. Qed.

Lemma split_amp_app (a b : string) :
  string_forallb (fun c => negb (Ascii.eqb c "&")) a = true ->
  split_amp (a +++ String "&" b) = a :: split_amp b.
Proof.
  induction a as [|c a IH]; intros H; [reflexivity|].
  cbn in H. apply andb_prop in H as [H1 H2]. apply negb_true_iff in H1.
  cbn [String.append split_amp]. rewrite H1, IH by exact H2. reflexivity.
Qed.

Lemma split_amp_none (a : string) :
  string_forallb (fun c => negb (Ascii.eqb c "&")) a = true -> split_amp a = [a].
Proof.
  induction a as [|c a IH]; intros H; [reflexivity|].
  cbn in H. apply andb_prop in H as [H1 H2]. apply negb_true_iff in H1.
  cbn [split_amp]. rewrite H1, IH by exact H2. reflexivity.
Qed.

Lemma cut_eq_app (k v : string) :
  string_forallb (fun c => negb (Ascii.eqb c "=")) k = true ->
  cut_eq (k +++ String "=" v) = (k, v).
Proof.
  induction k as [|c k IH]; intros H; [reflexivity|].
  cbn in H. apply andb_prop in H as [H1 H2]. apply negb_true_iff in H1.
  cbn [String.append cut_eq]. rewrite H1, IH by exact H2. reflexivity.
Qed.

Lemma QueryEscape_no (s : string) :
  string_forallb (fun c => negb (Ascii.eqb c "&")) (QueryEscape s) = true
  /\ string_forallb (fun c => negb (Ascii.eqb c "=")) (QueryEscape s) = true
  /\ string_forallb (fun c => negb (Ascii.eqb c ";")) (QueryEscape s) = true.
Proof.
  pose proof (QueryEscape_safe s) as H.
  split; [| split]; revert H; apply string_forallb_impl; intros c Hc;
    apply query_safe_delims in Hc; tauto.
Qed.

(** One piece [key=QueryEscape(x)] of the query. *)
Lemma parse_piece (m : Values) (ok : bool) (key x : string)
  (Hk : string_forallb (fun c => negb (Ascii.eqb c ";")) key = true)
  (Hk' : string_forallb (fun c => negb (Ascii.eqb c "=")) key = true)
  (Hne : key <> "") (Hku : QueryUnescape key = Some key) :
  (let '(m, ok) := (m, ok) in
   if string_has ";" (key +++ String "=" (QueryEscape x)) then (m, false)
   else if String.eqb (key +++ String "=" (QueryEscape x)) "" then (m, ok)
   else let '(k, v) := cut_eq (key +++ String "=" (QueryEscape x)) in
        match QueryUnescape k, QueryUnescape v with
        | Some k', Some v' => (Values_Add m k' v', ok)
        | _, _ => (m, false)
        end) = (Values_Add m key x, ok).
Proof.
  destruct (QueryEscape_no x) as [_ [_ Hx]].
  unfold string_has. rewrite string_forallb_app. cbn [string_forallb].
  rewrite Hk, Hx. cbn [negb andb].
  replace (String.eqb (key +++ String "=" (QueryEscape x)) "") with false
    by (destruct key; [congruence | reflexivity]).
  rewrite cut_eq_app by exact Hk'. rewrite Hku, QueryUnescape_QueryEscape. reflexivity.
Qed.

(** The query [encodeJokeURL] builds, read back by [url.ParseQuery],
    gives exactly the first name, the last name and [limitTo=nerdy], with
    no error, whatever characters the names hold. *)
Theorem encodeJokeURL_ParseQuery (firstName lastName : string) :
  encodeJokeURL firstName lastName
  = "http://api.icndb.com/jokes/random?"
    +++ ("firstName=" +++ QueryEscape firstName +++ "&lastName="
         +++ QueryEscape lastName +++ "&limitTo=nerdy")
  /\ ParseQuery ("firstName=" +++ QueryEscape firstName +++ "&lastName="
                 +++ QueryEscape lastName +++ "&limitTo=nerdy")
     = ([("firstName", [firstName]); ("lastName", [lastName]); ("limitTo", ["nerdy"])], true).
Proof.
  split; [reflexivity |].
  destruct (QueryEscape_no firstName) as [Ha1 _].
  destruct (QueryEscape_no lastName) as [Ha2 _].
  unfold ParseQuery.
  change ("firstName=" +++ QueryEscape firstName +++ "&lastName=" +++ QueryEscape lastName
          +++ "&limitTo=nerdy")
    with (("firstName" +++ String "=" (QueryEscape firstName))
          +++ String "&" (("lastName" +++ String "=" (QueryEscape lastName))
          +++ String "&" ("limitTo" +++ String "=" "nerdy"))).
  rewrite split_amp_app.
  2: { rewrite string_forallb_app. exact Ha1. }
  rewrite split_amp_app.
  2: { rewrite string_forallb_app. exact Ha2. }
  rewrite split_amp_none by reflexivity.
  cbn [fold_left].
  rewrite parse_piece by first [reflexivity | discriminate].
  rewrite parse_piece by first [reflexivity | discriminate].
  change "nerdy" with (QueryEscape "nerdy").
  rewrite parse_piece by first [reflexivity | discriminate].
  reflexivity.
Qed.

(** ** The rate-limit error message *)

(** The decimal digits of [n], most significant first ([fuel] bounds
    their number). *)
Fixpoint digits_N (fuel : nat) (n : N) : list nat :=
  match fuel with
  | O => []
  | S f =>
      if (n <? 10)%N then [N.to_nat n]
      else digits_N f (n / 10)%N ++ [N.to_nat (n mod 10)]
  end.

(** [fmt]'s [%d] of an [int] (20 digits cover every int64). *)
Definition fmt_d (z : Z) : string :=
  if z <? 0 then String "-" (string_of_digits (digits_N 20 (Z.to_N (- z))))
  else string_of_digits (digits_N 20 (Z.to_N z)).

(** [rateLimitError.Error]. *)
Definition rateLimitError_Error (retry : Z) : string :=
  "rate limit exceeded, retry in " +++ fmt_d retry +++ " seconds".

Lemma digits_N_spec (f : nat) (n : N) :
  (0 < f)%nat -> (n < 10 ^ N.of_nat f)%N ->
  digits_N f n <> [] /\ Forall (fun d => d < 10)%nat (digits_N f n)
  /\ digits_number (digits_N f n) = Z.of_N n.
Proof.
  revert n. induction f as [|f IH]; intros n Hf Hn; [lia |].
  cbn [digits_N]. destruct (n <? 10)%N eqn:E.
  - apply N.ltb_lt in E. split; [discriminate | split].
    + constructor; [lia | constructor].
    + unfold digits_number. cbn. rewrite N_nat_Z. reflexivity.
  - apply N.ltb_ge in E.
    assert (Hf' : (0 < f)%nat).
    { destruct f; [| lia]. cbn in Hn. lia. }
    assert (Hq : (n / 10 < 10 ^ N.of_nat f)%N).
    { apply N.Div0.div_lt_upper_bound.
      replace (N.of_nat (S f)) with (N.succ (N.of_nat f)) in Hn by lia.
      rewrite N.pow_succ_r' in Hn. lia. }
    destruct (IH (n / 10)%N Hf' Hq) as (Hne & HF & Hv).
    split; [| split].
    + destruct (digits_N f (n / 10)); [congruence | discriminate].
    + apply Forall_app. split; [exact HF |].
      constructor; [| constructor]. pose proof (N.mod_lt n 10 ltac:(discriminate)). lia.
    + unfold digits_number in *. rewrite fold_left_app, Hv. cbn [fold_left].
      rewrite N_nat_Z, N2Z.inj_div, N2Z.inj_mod.
      change (Z.of_N 10) with 10.
      pose proof (Z.div_mod (Z.of_N n) 10 ltac:(discriminate)). lia.
Qed.

Lemma Atoi_neg_digits (ds : list nat) :
  ds <> [] -> Forall (fun d => d < 10)%nat ds -> digits_number ds <= 2 ^ 63 ->
  Atoi (String "-" (string_of_digits ds)) = Some (- digits_number ds).
Proof.
  intros Hne HF Hm. destruct ds as [|d ds']; [congruence |].
  unfold Atoi.
  change (string_of_digits (d :: ds'))
    with (String (ascii_of_nat (48 + d)) (string_of_digits ds')).
  cbv beta iota.
  change (String (ascii_of_nat (48 + d)) (string_of_digits ds'))
    with (string_of_digits (d :: ds')).
  rewrite digits_value_digits by exact HF. fold (digits_number (d :: ds')).
  pose proof (fold_digits_nonneg (d :: ds') 0 ltac:(lia)) as Hn.
  fold (digits_number (d :: ds')) in Hn.
  replace ((int64_min <=? - digits_number (d :: ds'))
           && (- digits_number (d :: ds') <=? int64_max)) with true; [reflexivity |].
  symmetry. apply andb_true_intro. split; apply Z.leb_le; unfold int64_min, int64_max; lia.
Qed.

Lemma pow10_20 : Z.of_N (10 ^ N.of_nat 20) = 10 ^ 20.
Proof. reflexivity. Qed.

(** The message of a rate-limit error spells its delay: the number
    between the fixed words is [%d] of the retry value, and [Atoi] reads
    it back as that value, for every [int]. *)
Theorem rateLimitError_Error_delay (retry : Z)
  (Hr : int64_min <= retry <= int64_max) :
  exists s, rateLimitError_Error retry = "rate limit exceeded, retry in " +++ s +++ " seconds"
            /\ Atoi s = Some retry.
Proof.
  exists (fmt_d retry). split; [reflexivity |].
  unfold fmt_d, int64_min, int64_max in *. destruct (retry <? 0) eqn:E.
  - apply Z.ltb_lt in E.
    destruct (digits_N_spec 20 (Z.to_N (- retry))) as (Hne & HF & Hv);
      [lia | apply N2Z.inj_lt; rewrite Z2N.id, pow10_20 by lia; lia |].
    rewrite Atoi_neg_digits by (try rewrite Hv, Z2N.id by lia; assumption || lia).
    rewrite Hv, Z2N.id by lia. f_equal. lia.
  - apply Z.ltb_ge in E.
    destruct (digits_N_spec 20 (Z.to_N retry)) as (Hne & HF & Hv);
      [lia | apply N2Z.inj_lt; rewrite Z2N.id, pow10_20 by lia; lia |].
    rewrite Atoi_digits by (try rewrite Hv, Z2N.id by lia; unfold int64_max; assumption || lia).
    rewrite Hv, Z2N.id by lia. reflexivity.
Qed.

Lemma rateLimitError_Error_delay_witness :
  rateLimitError_Error (-42) = "rate limit exceeded, retry in -42 seconds"
  /\ exists s, rateLimitError_Error (-42) = "rate limit exceeded, retry in " +++ s +++ " seconds"
               /\ Atoi s = Some (-42).
Proof.
  split; [reflexivity |].
  apply rateLimitError_Error_delay. unfold int64_min, int64_max. lia.
Defined.
